(** * Table routing metadata store of meta-srv (src/meta-srv/src/table_routes.rs)

    A shallow embedding of [get_table_global_value], [get_table_route_value],
    [put_table_route_value], [table_route_key], [fetch_table] and
    [fetch_tables], over the key-value store port and the catalog metadata
    manager they consume. *)

From Stdlib Require Import Ascii String.
From stdpp Require Import base gmap strings list pretty.

Open Scope N_scope.

(* ------------------------------------------------------------------ *)
(** ** Data model *)

(** Raw bytes of a stored value. *)
Abbreviation bytes := (list N).

(** [common_meta::table_name::TableName] *)
Record TableName := {
  tn_catalog_name : string;
  tn_schema_name : string;
  tn_table_name : string;
}.

(** [table::engine::TableReference] *)
Record TableReference := {
  tr_catalog : string;
  tr_schema : string;
  tr_table : string;
}.

(** [table::metadata::RawTableInfo], with the fields the routing store reads. *)
Record RawTableInfo := {
  ident_table_id : N;
  ti_name : string;
  ti_catalog_name : string;
  ti_schema_name : string;
}.

(** [common_meta::helper::TableGlobalValue] *)
Record TableGlobalValue := {
  tgv_node_id : N;
  tgv_table_info : RawTableInfo;
}.

Definition table_id (v : TableGlobalValue) : N := ident_table_id (tgv_table_info v).

(** [common_meta::key::table_info::TableInfoValue] *)
Record TableInfoValue := {
  tiv_table_info : RawTableInfo;
  tiv_version : N;
}.

(** [api::v1::meta::Peer] *)
Record Peer := { peer_id : N; peer_addr : string }.

(** [api::v1::meta::Region] *)
Record Region := {
  region_id : N;
  region_name : string;
  region_partition : option string;
}.

(** [api::v1::meta::RegionRoute] *)
Record RegionRoute := {
  rr_region : option Region;
  leader_peer_index : N;
  follower_peer_indexes : list N;
}.

(** [api::v1::meta::Table] *)
Record Table := {
  table_id_of : N;
  table_table_name : option TableName;
}.

(** [api::v1::meta::TableRoute] *)
Record TableRoute := {
  route_table : option Table;
  region_routes : list RegionRoute;
}.

(** [api::v1::meta::TableRouteValue] *)
Record TableRouteValue := {
  peers : list Peer;
  table_route : option TableRoute;
}.

(** [common_meta::helper::TableGlobalKey] *)
Record TableGlobalKey := {
  tgk_catalog_name : string;
  tgk_schema_name : string;
  tgk_table_name : string;
}.

(** [common_meta::key::TableRouteKey] *)
Record TableRouteKey := {
  trk_table_id : N;
  trk_catalog_name : string;
  trk_schema_name : string;
  trk_table_name : string;
}.

(** The error kinds of [crate::error] that this module raises. *)
Inductive Error :=
| StoreUnavailable (msg : string)
| InvalidCatalogValue
| DecodeTableRoute
| TableRouteNotFound (key : string)
| TableMetadataManager (source : string).

(** [crate::error::Result] *)
Inductive Result (A : Type) :=
| Ok (a : A)
| Err (e : Error).
Arguments Ok {A} a.
Arguments Err {A} e.

(* ------------------------------------------------------------------ *)
(** ** Key encoders *)

(** Modelled from the spec: the key encoders of [common_meta] (section 4.1),
    "fields joined by a fixed separator with escaping of the separator
    inside field values", the route key embedding the numeric table id. *)
Fixpoint escape (s : string) : string :=
  match s with
  | EmptyString => EmptyString
  | String c r =>
      if Ascii.eqb c "-"%char then String "\" (String "-" (escape r))
      else if Ascii.eqb c "\"%char then String "\" (String "\" (escape r))
      else String c (escape r)
  end.

(** Reads one escaped field up to the next bare separator. *)
Fixpoint unescape (s : string) : option (string * string) :=
  match s with
  | EmptyString => None
  | String c r =>
      if Ascii.eqb c "-"%char then Some (EmptyString, r)
      else if Ascii.eqb c "\"%char then
        match r with
        | EmptyString => None
        | String c' r' =>
            match unescape r' with
            | Some (f, rest) => Some (String c' f, rest)
            | None => None
            end
        end
      else
        match unescape r with
        | Some (f, rest) => Some (String c f, rest)
        | None => None
        end
  end.

Definition TABLE_GLOBAL_KEY_PREFIX : string := "__tg".
Definition TABLE_ROUTE_PREFIX : string := "__meta_table_route".

(** Modelled from the spec: [TableGlobalKey::to_raw_key]. *)
Definition to_raw_key (k : TableGlobalKey) : string :=
  TABLE_GLOBAL_KEY_PREFIX +:+ "-" +:+ escape (tgk_catalog_name k) +:+ "-"
    +:+ escape (tgk_schema_name k) +:+ "-" +:+ escape (tgk_table_name k).

(** Modelled from the spec: [impl Display for TableRouteKey]. *)
Definition route_key_to_string (k : TableRouteKey) : string :=
  TABLE_ROUTE_PREFIX +:+ "-" +:+ escape (trk_catalog_name k) +:+ "-"
    +:+ escape (trk_schema_name k) +:+ "-" +:+ escape (trk_table_name k) +:+ "-"
    +:+ pretty (trk_table_id k).

(* ------------------------------------------------------------------ *)
(** ** Value codecs *)

(** Modelled from the spec: the value codecs (section 4.2) of
    [TableGlobalValue::from_bytes] and of [TableRouteValue]'s
    [From<TableRouteValue> for Vec<u8>] / [TryFrom<&[u8]>]: an
    order-preserving, length-prefixed encoding into a list of words. A
    decoder reads a prefix and returns the remaining input. *)
Definition Parser (A : Type) := bytes -> option (A * bytes).

Definition p_ret {A} (a : A) : Parser A := fun b => Some (a, b).
Definition p_bind {A B} (p : Parser A) (f : A -> Parser B) : Parser B :=
  fun b => match p b with Some (a, r) => f a r | None => None end.

Notation "x <-- p ;; q" := (p_bind p (fun x => q))
  (at level 100, p at next level, right associativity).

Definition p_word : Parser N :=
  fun b => match b with w :: r => Some (w, r) | [] => None end.

Fixpoint p_repeat {A} (n : nat) (p : Parser A) : Parser (list A) :=
  match n with
  | O => p_ret []
  | S n' => x <-- p ;; xs <-- p_repeat n' p ;; p_ret (x :: xs)
  end.

Definition enc_list {A} (f : A -> bytes) (l : list A) : bytes :=
  N.of_nat (length l) :: List.concat (map f l).
Definition dec_list {A} (p : Parser A) : Parser (list A) :=
  n <-- p_word ;; p_repeat (N.to_nat n) p.

Definition enc_option {A} (f : A -> bytes) (o : option A) : bytes :=
  match o with None => [0] | Some a => 1 :: f a end.
Definition dec_option {A} (p : Parser A) : Parser (option A) :=
  t <-- p_word ;;
  match t with
  | 0 => p_ret None
  | 1 => a <-- p ;; p_ret (Some a)
  | _ => fun _ => None
  end.

Definition enc_string (s : string) : bytes :=
  enc_list (fun c => [N_of_ascii c]) (list_ascii_of_string s).
Definition dec_string : Parser string :=
  cs <-- dec_list (w <-- p_word ;; p_ret (ascii_of_N w)) ;;
  p_ret (string_of_list_ascii cs).

Definition enc_raw_table_info (t : RawTableInfo) : bytes :=
  [ident_table_id t] ++ enc_string (ti_name t) ++ enc_string (ti_catalog_name t)
    ++ enc_string (ti_schema_name t).
Definition dec_raw_table_info : Parser RawTableInfo :=
  i <-- p_word ;; n <-- dec_string ;; c <-- dec_string ;; s <-- dec_string ;;
  p_ret {| ident_table_id := i; ti_name := n; ti_catalog_name := c; ti_schema_name := s |}.

Definition enc_table_name (t : TableName) : bytes :=
  enc_string (tn_catalog_name t) ++ enc_string (tn_schema_name t)
    ++ enc_string (tn_table_name t).
Definition dec_table_name : Parser TableName :=
  c <-- dec_string ;; s <-- dec_string ;; t <-- dec_string ;;
  p_ret {| tn_catalog_name := c; tn_schema_name := s; tn_table_name := t |}.

Definition enc_peer (p : Peer) : bytes := [peer_id p] ++ enc_string (peer_addr p).
Definition dec_peer : Parser Peer :=
  i <-- p_word ;; a <-- dec_string ;; p_ret {| peer_id := i; peer_addr := a |}.

Definition enc_region (r : Region) : bytes :=
  [region_id r] ++ enc_string (region_name r) ++ enc_option enc_string (region_partition r).
Definition dec_region : Parser Region :=
  i <-- p_word ;; n <-- dec_string ;; p <-- dec_option dec_string ;;
  p_ret {| region_id := i; region_name := n; region_partition := p |}.

Definition enc_region_route (r : RegionRoute) : bytes :=
  enc_option enc_region (rr_region r) ++ [leader_peer_index r]
    ++ enc_list (fun i => [i]) (follower_peer_indexes r).
Definition dec_region_route : Parser RegionRoute :=
  g <-- dec_option dec_region ;; l <-- p_word ;; fs <-- dec_list p_word ;;
  p_ret {| rr_region := g; leader_peer_index := l; follower_peer_indexes := fs |}.

Definition enc_table (t : Table) : bytes :=
  [table_id_of t] ++ enc_option enc_table_name (table_table_name t).
Definition dec_table : Parser Table :=
  i <-- p_word ;; n <-- dec_option dec_table_name ;;
  p_ret {| table_id_of := i; table_table_name := n |}.

Definition enc_table_route (t : TableRoute) : bytes :=
  enc_option enc_table (route_table t) ++ enc_list enc_region_route (region_routes t).
Definition dec_table_route : Parser TableRoute :=
  t <-- dec_option dec_table ;; rs <-- dec_list dec_region_route ;;
  p_ret {| route_table := t; region_routes := rs |}.

(** The whole input must be consumed. *)
Definition p_full {A} (p : Parser A) (b : bytes) : option A :=
  match p b with Some (a, []) => Some a | _ => None end.

(** [Vec<u8>::from(TableRouteValue)] *)
Definition encode_table_route_value (v : TableRouteValue) : bytes :=
  enc_list enc_peer (peers v) ++ enc_option enc_table_route (table_route v).

(** [TableRouteValue::try_from(&[u8])] *)
Definition decode_table_route_value : bytes -> option TableRouteValue :=
  p_full (ps <-- dec_list dec_peer ;; t <-- dec_option dec_table_route ;;
          p_ret {| peers := ps; table_route := t |}).

(** [TableGlobalValue::as_bytes] *)
Definition encode_table_global_value (v : TableGlobalValue) : bytes :=
  [tgv_node_id v] ++ enc_raw_table_info (tgv_table_info v).

(** [TableGlobalValue::from_bytes] *)
Definition decode_table_global_value : bytes -> option TableGlobalValue :=
  p_full (n <-- p_word ;; t <-- dec_raw_table_info ;;
          p_ret {| tgv_node_id := n; tgv_table_info := t |}).

(* ------------------------------------------------------------------ *)
(** ** Store port and catalog metadata manager *)

(** [common_meta::rpc::store::PutRequest] *)
Record PutRequest := {
  put_key : string;
  put_value : bytes;
  prev_kv : bool;
}.

(** The requests the routing store issues, in order: a KV [get], a KV
    [put], or a lookup of the catalog metadata manager. *)
Inductive KvOp :=
| OpGet (key : string)
| OpPut (req : PutRequest)
| OpTableInfo (name : TableName).

(** The [KvStore] trait ([crate::service::store::kv]): a [get] reads the
    value under a key, a [put] may change the store and returns the previous
    value when [prev_kv] asks for it; both may fail. *)
Class KvStore (S : Type) := {
  kv_get : S -> string -> Result (option bytes);
  kv_put : S -> PutRequest -> Result (S * option bytes);
}.

(** The table info manager of [TableMetadataManager]: [get_old] resolves a
    table name to its info, or fails with an error of its own. *)
Class TableInfoManager (S : Type) := {
  get_old : S -> TableName -> string + option TableInfoValue;
}.

(** Asynchronous code over the store: state passing, the trace of issued
    requests, and the [Result] of the [?] operator. *)
Definition M (S A : Type) : Type := S -> S * list KvOp * Result A.

Section Monad.
Context {S : Type}.

Definition ret {A} (a : A) : M S A := fun s => (s, [], Ok a).

Definition throw {A} (e : Error) : M S A := fun s => (s, [], Err e).

Definition bind {A B} (m : M S A) (f : A -> M S B) : M S B :=
  fun s =>
    match m s with
    | (s1, o1, Ok a) => let '(s2, o2, r) := f a s1 in (s2, o1 ++ o2, r)
    | (s1, o1, Err e) => (s1, o1, Err e)
    end.

End Monad.

Notation "x <- m ; k" := (bind m (fun x => k))
  (at level 100, m at next level, right associativity).

Section Routing.
Context {S : Type} `{KvStore S} `{TableInfoManager S}.

(** [kv_store.get(key).await?] *)
Definition store_get (key : string) : M S (option bytes) :=
  fun s => (s, [OpGet key], kv_get s key).

(** [kv_store.put(req).await?] *)
Definition store_put (req : PutRequest) : M S (option bytes) :=
  fun s =>
    match kv_put s req with
    | Ok (s', prev) => (s', [OpPut req], Ok prev)
    | Err e => (s, [OpPut req], Err e)
    end.

(** [ctx.table_metadata_manager.table_info_manager().get_old(&name).await
    .context(TableMetadataManagerSnafu)?] *)
Definition table_info_get_old (name : TableName) : M S (option TableInfoValue) :=
  fun s =>
    (s, [OpTableInfo name],
     match get_old s name with
     | inl source => Err (TableMetadataManager source)
     | inr o => Ok o
     end).

(** [get_table_global_value] *)
Definition get_table_global_value (key : TableGlobalKey) : M S (option TableGlobalValue) :=
  kv <- store_get (to_raw_key key);
  match kv with
  | None => ret None
  | Some value =>
      match decode_table_global_value value with
      | Some v => ret (Some v)
      | None => throw InvalidCatalogValue
      end
  end.

(** [get_table_route_value] *)
Definition get_table_route_value (key : TableRouteKey) : M S TableRouteValue :=
  kv <- store_get (route_key_to_string key);
  match kv with
  | None => throw (TableRouteNotFound (route_key_to_string key))
  | Some value =>
      match decode_table_route_value value with
      | Some v => ret v
      | None => throw DecodeTableRoute
      end
  end.

(** [put_table_route_value] *)
Definition put_table_route_value (key : TableRouteKey) (value : TableRouteValue) : M S unit :=
  let req := {| put_key := route_key_to_string key;
                put_value := encode_table_route_value value;
                prev_kv := false |} in
  _ <- store_put req;
  ret tt.

(** [table_route_key] *)
Definition table_route_key (table_id : N) (t : TableGlobalKey) : TableRouteKey :=
  {| trk_table_id := table_id;
     trk_catalog_name := tgk_catalog_name t;
     trk_schema_name := tgk_schema_name t;
     trk_table_name := tgk_table_name t |}.

Definition global_key_of_ref (table_ref : TableReference) : TableGlobalKey :=
  {| tgk_catalog_name := tr_catalog table_ref;
     tgk_schema_name := tr_schema table_ref;
     tgk_table_name := tr_table table_ref |}.

(** [fetch_table] *)
Definition fetch_table (table_ref : TableReference)
  : M S (option (TableGlobalValue * TableRouteValue)) :=
  let tgk := global_key_of_ref table_ref in
  tgv <- get_table_global_value tgk;
  match tgv with
  | Some tgv =>
      trv <- get_table_route_value (table_route_key (table_id tgv) tgk);
      ret (Some (tgv, trv))
  | None => ret None
  end.

(** The [TableRouteKey] built in the loop body of [fetch_tables]. *)
Definition route_key_of_info (table_info : RawTableInfo) : TableRouteKey :=
  {| trk_table_id := ident_table_id table_info;
     trk_catalog_name := ti_catalog_name table_info;
     trk_schema_name := ti_schema_name table_info;
     trk_table_name := ti_name table_info |}.

(** The [for table_name in table_names] loop of [fetch_tables], with the
    mutable vector [tables] as accumulator. *)
Fixpoint fetch_tables_loop (table_names : list TableName)
  (tables : list (TableInfoValue * TableRouteValue))
  : M S (list (TableInfoValue * TableRouteValue)) :=
  match table_names with
  | [] => ret tables
  | table_name :: rest =>
      o <- table_info_get_old table_name;
      match o with
      | None => fetch_tables_loop rest tables
      | Some tgv =>
          trv <- get_table_route_value (route_key_of_info (tiv_table_info tgv));
          fetch_tables_loop rest (tables ++ [(tgv, trv)])
      end
  end.

(** [fetch_tables] *)
Definition fetch_tables (table_names : list TableName)
  : M S (list (TableInfoValue * TableRouteValue)) :=
  fetch_tables_loop table_names [].

End Routing.

(* ------------------------------------------------------------------ *)
(** ** What each name contributes to a batched fetch *)

Section BatchView.
Context {S : Type} `{KvStore S} `{TableInfoManager S}.

(** The entry a name contributes to the output of [fetch_tables] on store
    [s]: nothing when its table info is absent, otherwise the info with its
    route. *)
Definition fetch_entry (s : S) (n : TableName) : option (TableInfoValue * TableRouteValue) :=
  match get_old s n with
  | inr (Some i) =>
      match (get_table_route_value (route_key_of_info (tiv_table_info i)) s).2 with
      | Ok v => Some (i, v)
      | Err _ => None
      end
  | _ => None
  end.

(** The requests a name makes [fetch_tables] issue: the table info lookup,
    then the route read when the info is present. *)
Definition fetch_requests (s : S) (n : TableName) : list KvOp :=
  OpTableInfo n ::
  match get_old s n with
  | inr (Some i) => [OpGet (route_key_to_string (route_key_of_info (tiv_table_info i)))]
  | _ => []
  end.

(** A name whose lookups all succeed: its info lookup does not fail and,
    when the info is present, its route is read. *)
Definition fetch_ok (s : S) (n : TableName) : Prop :=
  match get_old s n with
  | inl _ => False
  | inr None => True
  | inr (Some i) =>
      exists v, (get_table_route_value (route_key_of_info (tiv_table_info i)) s).2 = Ok v
  end.

End BatchView.

(* ------------------------------------------------------------------ *)
(** ** In-memory store *)

(** Modelled from the spec: [crate::service::store::memory::MemStore], the
    in-memory substitute of the KV port (section 6): a [put] overwrites the
    key (last write wins) and returns the previous value only when
    [prev_kv] is set; neither operation fails. *)
#[global] Instance MemStore : KvStore (gmap string bytes) := {
  kv_get s key := Ok (s !! key);
  kv_put s req :=
    Ok (<[put_key req := put_value req]> s,
        if prev_kv req then s !! put_key req else None);
}.

Definition global_key_of_name (n : TableName) : TableGlobalKey :=
  {| tgk_catalog_name := tn_catalog_name n;
     tgk_schema_name := tn_schema_name n;
     tgk_table_name := tn_table_name n |}.

(** Modelled from the spec: [TableInfoManager::get_old] of [common_meta],
    reading the table's global value from the same in-memory store. *)
#[global] Instance MemTableInfoManager : TableInfoManager (gmap string bytes) := {
  get_old s n :=
    match s !! to_raw_key (global_key_of_name n) with
    | None => inr None
    | Some b =>
        match decode_table_global_value b with
        | Some v => inr (Some {| tiv_table_info := tgv_table_info v; tiv_version := 0 |})
        | None => inl "invalid table global value"
        end
    end;
}.

(** Runs a computation on the in-memory store. *)
Definition run_mem {A} (m : M (gmap string bytes) A) (s : gmap string bytes)
  : gmap string bytes * list KvOp * Result A := m s.

(** Sample values of the concrete scenario of the spec (section 8). *)
Definition sample_peers : list Peer :=
  [ {| peer_id := 1; peer_addr := "n1" |};
    {| peer_id := 2; peer_addr := "n2" |};
    {| peer_id := 3; peer_addr := "n3" |} ].

Definition sample_route_value : TableRouteValue :=
  {| peers := sample_peers;
     table_route := Some {|
       route_table := Some {| table_id_of := 7;
                              table_table_name := Some {| tn_catalog_name := "c";
                                                          tn_schema_name := "s";
                                                          tn_table_name := "t" |} |};
       region_routes := [ {| rr_region := Some {| region_id := 1; region_name := "";
                                                   region_partition := None |};
                             leader_peer_index := 0;
                             follower_peer_indexes := [] |} ] |} |}.

Definition sample_route_key (id : N) : TableRouteKey :=
  {| trk_table_id := id; trk_catalog_name := "c"; trk_schema_name := "s";
     trk_table_name := "t" |}.

Definition sample_info (id : N) (t : string) : RawTableInfo :=
  {| ident_table_id := id; ti_name := t; ti_catalog_name := "c"; ti_schema_name := "s" |}.

Definition sample_name (t : string) : TableName :=
  {| tn_catalog_name := "c"; tn_schema_name := "s"; tn_table_name := t |}.

Definition sample_global_value (id : N) (t : string) : TableGlobalValue :=
  {| tgv_node_id := 0; tgv_table_info := sample_info id t |}.

Definition global_key_string (t : string) : string :=
  to_raw_key (global_key_of_name (sample_name t)).

Definition route_key_string (id : N) (t : string) : string :=
  route_key_to_string (route_key_of_info (sample_info id t)).

Definition sample_route (id : N) : TableRouteValue :=
  {| peers := sample_peers;
     table_route := Some {| route_table := Some {| table_id_of := id;
                                                  table_table_name := None |};
                            region_routes := [] |} |}.

(** A store with tables [A] (id 1) and [C] (id 3), both with a route, and no
    record at all for [B]. *)
Definition store_skip : gmap string bytes :=
  <[global_key_string "A" := encode_table_global_value (sample_global_value 1 "A")]>
  (<[route_key_string 1 "A" := encode_table_route_value (sample_route 1)]>
  (<[global_key_string "C" := encode_table_global_value (sample_global_value 3 "C")]>
  (<[route_key_string 3 "C" := encode_table_route_value (sample_route 3)]> ∅))).

(** A store with tables [A] (id 1) and [B] (id 2), where [B] has no route. *)
Definition store_abort : gmap string bytes :=
  <[global_key_string "A" := encode_table_global_value (sample_global_value 1 "A")]>
  (<[route_key_string 1 "A" := encode_table_route_value (sample_route 1)]>
  (<[global_key_string "B" := encode_table_global_value (sample_global_value 2 "B")]> ∅)).

(** A store where the table info of [B] cannot be read. *)
Definition store_info_error : gmap string bytes :=
  <[global_key_string "A" := encode_table_global_value (sample_global_value 1 "A")]>
  (<[route_key_string 1 "A" := encode_table_route_value (sample_route 1)]>
  (<[global_key_string "B" := []]> ∅)).

(** A store where the name [x] resolves to a table info recorded as [t]. *)
Definition store_renamed : gmap string bytes :=
  <[global_key_string "x" := encode_table_global_value (sample_global_value 5 "t")]>
  (<[route_key_string 5 "t" := encode_table_route_value (sample_route 5)]> ∅).

(** A store with table [A] (id 1) and its route, where the name [x] also
    resolves to a table info recorded as [t] (id 5). *)
Definition store_renamed_after : gmap string bytes :=
  <[global_key_string "A" := encode_table_global_value (sample_global_value 1 "A")]>
  (<[route_key_string 1 "A" := encode_table_route_value (sample_route 1)]> store_renamed).

(** Stores for [fetch_table]: global value only, and global value with route. *)
Definition store_global_only : gmap string bytes :=
  <[global_key_string "t" := encode_table_global_value (sample_global_value 7 "t")]> ∅.

Definition store_global_and_route : gmap string bytes :=
  <[route_key_string 7 "t" := encode_table_route_value sample_route_value]> store_global_only.

Definition sample_ref (t : string) : TableReference :=
  {| tr_catalog := "c"; tr_schema := "s"; tr_table := t |}.

(** A store holding undecodable bytes under a global key and a route key. *)
Definition store_corrupt : gmap string bytes :=
  <[global_key_string "t" := []]> (<[route_key_string 7 "t" := []]> ∅).

Definition sample_info_value (id : N) (t : string) : TableInfoValue :=
  {| tiv_table_info := sample_info id t; tiv_version := 0 |}.

Definition empty_store : gmap string bytes := ∅.

(* ------------------------------------------------------------------ *)
(** ** Test helper of table_routes.rs *)

(** The [find_map] over [peers.iter().enumerate()] in [new_region_route]:
    the index of the first peer whose id is [leader_node]. *)
Fixpoint find_leader_index (i : N) (peers : list Peer) (leader_node : N) : option N :=
  match peers with
  | [] => None
  | peer :: rest =>
      if N.eqb (peer_id peer) leader_node then Some i
      else find_leader_index (i + 1) rest leader_node
  end.

(** [tests::new_region_route]; [None] is the panic of its [unwrap]. The
    region's empty [attrs] map is not modelled. *)
Definition new_region_route (region_number : N) (peers : list Peer) (leader_node : N)
  : option RegionRoute :=
  let region := {| region_id := region_number; region_name := "";
                   region_partition := None |} in
  match find_leader_index 0 peers leader_node with
  | Some leader_peer_index =>
      Some {| rr_region := Some region;
              leader_peer_index := leader_peer_index;
              follower_peer_indexes := [] |}
  | None => None
  end.

(* ------------------------------------------------------------------ *)
(** ** Column default constraints (src/datatypes/src/schema/constraint.rs) *)

(** [common_time::timestamp::TimeUnit] *)
Inductive TimeUnit := Second | Millisecond | Microsecond | Nanosecond.

(** [datatypes::data_type::ConcreteDataType] *)
Inductive ConcreteDataType :=
| DtNull | DtBoolean
| DtInt8 | DtInt16 | DtInt32 | DtInt64
| DtUInt8 | DtUInt16 | DtUInt32 | DtUInt64
| DtFloat32 | DtFloat64
| DtBinary | DtString | DtDate | DtDateTime
| DtTimestamp (unit : TimeUnit)
| DtList (item_type : ConcreteDataType).

(** [datatypes::type_id::LogicalTypeId] *)
Inductive LogicalTypeId :=
| LNull | LBoolean
| LInt8 | LInt16 | LInt32 | LInt64
| LUInt8 | LUInt16 | LUInt32 | LUInt64
| LFloat32 | LFloat64
| LString | LBinary | LDate | LDateTime
| LTimestampSecond | LTimestampMillisecond | LTimestampMicrosecond | LTimestampNanosecond
| LList.

#[global] Instance LogicalTypeId_eq_dec : EqDecision LogicalTypeId.
Proof. solve_decision. Defined.

#[local] Set Warnings "-register-all".

(** [datatypes::value::Value]; a float is kept as its bit pattern, a
    timestamp as its value and unit, a list as its items and item type. *)
Inductive Value :=
| VNull
| VBoolean (b : bool)
| VUInt8 (x : Z) | VUInt16 (x : Z) | VUInt32 (x : Z) | VUInt64 (x : Z)
| VInt8 (x : Z) | VInt16 (x : Z) | VInt32 (x : Z) | VInt64 (x : Z)
| VFloat32 (bits : Z) | VFloat64 (bits : Z)
| VString (s : string)
| VBinary (b : bytes)
| VDate (days : Z)
| VDateTime (secs : Z)
| VTimestamp (value : Z) (unit : TimeUnit)
| VList (items : option (list Value)) (datatype : ConcreteDataType).

Definition timestamp_logical_type_id (u : TimeUnit) : LogicalTypeId :=
  match u with
  | Second => LTimestampSecond
  | Millisecond => LTimestampMillisecond
  | Microsecond => LTimestampMicrosecond
  | Nanosecond => LTimestampNanosecond
  end.

(** [ConcreteDataType::logical_type_id] *)
Definition dt_logical_type_id (dt : ConcreteDataType) : LogicalTypeId :=
  match dt with
  | DtNull => LNull | DtBoolean => LBoolean
  | DtInt8 => LInt8 | DtInt16 => LInt16 | DtInt32 => LInt32 | DtInt64 => LInt64
  | DtUInt8 => LUInt8 | DtUInt16 => LUInt16 | DtUInt32 => LUInt32 | DtUInt64 => LUInt64
  | DtFloat32 => LFloat32 | DtFloat64 => LFloat64
  | DtBinary => LBinary | DtString => LString | DtDate => LDate | DtDateTime => LDateTime
  | DtTimestamp u => timestamp_logical_type_id u
  | DtList _ => LList
  end.

(** [Value::logical_type_id] *)
Definition value_logical_type_id (v : Value) : LogicalTypeId :=
  match v with
  | VNull => LNull | VBoolean _ => LBoolean
  | VUInt8 _ => LUInt8 | VUInt16 _ => LUInt16 | VUInt32 _ => LUInt32 | VUInt64 _ => LUInt64
  | VInt8 _ => LInt8 | VInt16 _ => LInt16 | VInt32 _ => LInt32 | VInt64 _ => LInt64
  | VFloat32 _ => LFloat32 | VFloat64 _ => LFloat64
  | VString _ => LString | VBinary _ => LBinary | VDate _ => LDate | VDateTime _ => LDateTime
  | VTimestamp _ u => timestamp_logical_type_id u
  | VList _ _ => LList
  end.

(** [Value::is_null] *)
Definition is_null (v : Value) : bool := match v with VNull => true | _ => false end.

(** [ConcreteDataType::is_timestamp_compatible] *)
Definition is_timestamp_compatible (dt : ConcreteDataType) : bool :=
  match dt with DtTimestamp _ | DtInt64 => true | _ => false end.

(** The error kinds of [datatypes::error] raised here; the [reason] text of
    [DefaultValueType] is not modelled. [CastType] is the error of a builder
    that refuses a value. *)
Inductive DtError :=
| NullDefault
| UnsupportedDefaultExpr (expr : string)
| DefaultValueType
| CastType.

(** [datatypes::error::Result] *)
Inductive DResult (A : Type) :=
| DOk (a : A)
| DErr (e : DtError).
Arguments DOk {A} a.
Arguments DErr {A} e.

(** [ColumnDefaultConstraint] *)
Inductive ColumnDefaultConstraint :=
| DefaultFunction (expr : string)
| DefaultValue (v : Value).

Definition CURRENT_TIMESTAMP : string := "current_timestamp()".

(** [ColumnDefaultConstraint::null_value] *)
Definition null_value : ColumnDefaultConstraint := DefaultValue VNull.

(** [ColumnDefaultConstraint::maybe_null] *)
Definition maybe_null (c : ColumnDefaultConstraint) : bool :=
  match c with DefaultValue VNull => true | _ => false end.

(** [ColumnDefaultConstraint::validate] *)
Definition validate (c : ColumnDefaultConstraint) (data_type : ConcreteDataType)
  (is_nullable : bool) : DResult unit :=
  if negb (is_nullable || negb (maybe_null c)) then DErr NullDefault else
  match c with
  | DefaultFunction expr =>
      if negb (String.eqb expr CURRENT_TIMESTAMP) then DErr (UnsupportedDefaultExpr expr)
      else if negb (is_timestamp_compatible data_type) then DErr DefaultValueType
      else DOk tt
  | DefaultValue v =>
      if negb (is_null v) then
        if decide (dt_logical_type_id data_type = value_logical_type_id v) then DOk tt
        else DErr DefaultValueType
      else DOk tt
  end.

(** A vector is modelled by the values its [get] returns, in order. *)
Abbreviation VectorRef := (list Value).

(** [create_current_timestamp_vector], with [now] the value of
    [util::current_time_millis()]: a timestamp column of any unit gets a
    millisecond vector. *)
Definition create_current_timestamp_vector (now : Z) (data_type : ConcreteDataType)
  (num_rows : nat) : DResult VectorRef :=
  match data_type with
  | DtTimestamp _ => DOk (repeat (VTimestamp now Millisecond) num_rows)
  | DtInt64 => DOk (repeat (VInt64 now) num_rows)
  | _ => DErr DefaultValueType
  end.

Section DefaultVector.
(** [mutable_vector.try_push_value_ref(v.as_value_ref())] on a builder made
    by [data_type.create_mutable_vector(1)], which belongs to the vectors of
    the datatypes crate: it fails, or gives the one value the builder holds
    afterwards, which [mutable_vector.to_vector()] then returns. *)
Variable try_push_value_ref : ConcreteDataType -> Value -> DResult Value.
(** [util::current_time_millis()] *)
Variable now : Z.

(** [ColumnDefaultConstraint::create_default_vector]; [None] is the panic of
    [assert!(num_rows > 0)], and [base_vector.replicate(&[num_rows])] repeats
    the one value of [base_vector] [num_rows] times. *)
Definition create_default_vector (c : ColumnDefaultConstraint) (data_type : ConcreteDataType)
  (is_nullable : bool) (num_rows : nat) : option (DResult VectorRef) :=
  if Nat.eqb num_rows 0 then None else
  Some match c with
  | DefaultFunction expr =>
      if String.eqb expr CURRENT_TIMESTAMP
      then create_current_timestamp_vector now data_type num_rows
      else DErr (UnsupportedDefaultExpr expr)
  | DefaultValue v =>
      if negb (is_nullable || negb (is_null v)) then DErr NullDefault else
      match try_push_value_ref data_type v with
      | DErr e => DErr e
      | DOk stored => DOk (repeat stored num_rows)
      end
  end.

End DefaultVector.

(** A builder that takes null and the values of its own logical type, and
    holds them unchanged. *)
Definition push_same_logical_type (data_type : ConcreteDataType) (v : Value) : DResult Value :=
  if is_null v then DOk v
  else if decide (dt_logical_type_id data_type = value_logical_type_id v) then DOk v
  else DErr CastType.

Example route_key_7 :
  route_key_to_string (sample_route_key 7) = "__meta_table_route-c-s-t-7".
Proof. reflexivity. Qed.

Example escape_dash :
  route_key_to_string {| trk_table_id := 12; trk_catalog_name := "a-b";
                         trk_schema_name := "s"; trk_table_name := "t" |}
  = "__meta_table_route-a\-b-s-t-12".
Proof. reflexivity. Qed.

Example route_codec_sample :
  decode_table_route_value (encode_table_route_value sample_route_value)
  = Some sample_route_value.
Proof. reflexivity. Qed.

(* ------------------------------------------------------------------ *)
(** ** Key encoders: the route key determines its components *)

Lemma unescape_escape (f r : string) :
  unescape (escape f +:+ String "-" r) = Some (f, r).
Proof.
  induction f as [|c f IH]; [reflexivity|].
  cbn [escape].
  destruct (Ascii.eqb c "-"%char) eqn:Ed.
  - apply Ascii.eqb_eq in Ed as ->. unfold String.append; fold String.append.
    simpl. rewrite IH. reflexivity.
  - destruct (Ascii.eqb c "\"%char) eqn:Eb.
    + apply Ascii.eqb_eq in Eb as ->. unfold String.append; fold String.append.
      simpl. rewrite IH. reflexivity.
    + unfold String.append; fold String.append. simpl. rewrite Ed, Eb, IH. reflexivity.
Qed.

Lemma escape_sep_inj (f1 f2 r1 r2 : string) :
  escape f1 +:+ String "-" r1 = escape f2 +:+ String "-" r2 -> f1 = f2 /\ r1 = r2.
Proof.
  intros Heq. apply (f_equal unescape) in Heq.
  rewrite !unescape_escape in Heq. injection Heq as -> ->. auto.
Qed.

Lemma route_key_to_string_inj (k1 k2 : TableRouteKey) :
  route_key_to_string k1 = route_key_to_string k2 -> k1 = k2.
Proof.
  destruct k1 as [i1 c1 s1 t1], k2 as [i2 c2 s2 t2].
  unfold route_key_to_string, TABLE_ROUTE_PREFIX; cbn [trk_table_id trk_catalog_name
    trk_schema_name trk_table_name]. unfold String.append at 1 2 3 4; fold String.append.
  intros Heq. repeat (injection Heq as Heq).
  apply escape_sep_inj in Heq as [-> Heq].
  apply escape_sep_inj in Heq as [-> Heq].
  apply escape_sep_inj in Heq as [-> Heq].
  apply (inj pretty) in Heq as ->. reflexivity.
Qed.

(* ------------------------------------------------------------------ *)
(** ** Value codecs: decoding an encoding gives the value back *)

Definition roundtrip {A} (enc : A -> bytes) (dec : Parser A) : Prop :=
  forall a r, dec (enc a ++ r) = Some (a, r).

Lemma p_bind_roundtrip {A B} (enc : A -> bytes) (dec : Parser A) (k : A -> Parser B) a r :
  roundtrip enc dec -> p_bind dec k (enc a ++ r) = k a r.
Proof. intros Hrt. unfold p_bind. rewrite Hrt. reflexivity. Qed.

Lemma p_bind_word {B} (k : N -> Parser B) w r :
  p_bind p_word k (w :: r) = k w r.
Proof. reflexivity. Qed.

Lemma roundtrip_word : roundtrip (fun w => [w]) p_word.
Proof. intros w r. reflexivity. Qed.

Lemma p_repeat_roundtrip {A} (enc : A -> bytes) (dec : Parser A) (l : list A) r :
  roundtrip enc dec -> p_repeat (length l) dec (List.concat (map enc l) ++ r) = Some (l, r).
Proof.
  intros Hrt. induction l as [|a l IH]; [reflexivity|].
  cbn [length p_repeat map List.concat]. rewrite <- app_assoc.
  rewrite (p_bind_roundtrip _ _ _ _ _ Hrt).
  unfold p_bind at 1. rewrite IH. reflexivity.
Qed.

Lemma roundtrip_list {A} (enc : A -> bytes) (dec : Parser A) :
  roundtrip enc dec -> roundtrip (enc_list enc) (dec_list dec).
Proof.
  intros Hrt l r. unfold enc_list, dec_list. cbn [app].
  rewrite p_bind_word, Nat2N.id. apply p_repeat_roundtrip, Hrt.
Qed.

Lemma roundtrip_option {A} (enc : A -> bytes) (dec : Parser A) :
  roundtrip enc dec -> roundtrip (enc_option enc) (dec_option dec).
Proof.
  intros Hrt [a|] r; unfold enc_option, dec_option; cbn [app];
    rewrite p_bind_word; [|reflexivity].
  rewrite (p_bind_roundtrip _ _ _ _ _ Hrt). reflexivity.
Qed.

Lemma roundtrip_string : roundtrip enc_string dec_string.
Proof.
  intros s r. unfold enc_string, dec_string.
  assert (Hc : roundtrip (fun c => [N_of_ascii c]) (w <-- p_word ;; p_ret (ascii_of_N w))).
  { intros c r'. cbn. rewrite ascii_N_embedding. reflexivity. }
  rewrite (p_bind_roundtrip _ _ _ _ _ (roundtrip_list _ _ Hc)).
  unfold p_ret. rewrite string_of_list_ascii_of_string. reflexivity.
Qed.

Ltac roundtrip_step :=
  first [ rewrite (p_bind_roundtrip _ _ _ _ _ roundtrip_string)
        | rewrite p_bind_word
        | rewrite (p_bind_roundtrip _ _ _ _ _ (roundtrip_list _ _ roundtrip_word))
        | rewrite (p_bind_roundtrip _ _ _ _ _ (roundtrip_option _ _ roundtrip_string)) ].

Ltac roundtrip_record :=
  let a := fresh "a" in let r := fresh "r" in
  intros a r; destruct a; cbn [app];
  repeat rewrite <- app_assoc; cbn [app];
  repeat roundtrip_step; reflexivity.

Lemma roundtrip_raw_table_info : roundtrip enc_raw_table_info dec_raw_table_info.
Proof. unfold enc_raw_table_info, dec_raw_table_info. roundtrip_record. Qed.

Lemma roundtrip_table_name : roundtrip enc_table_name dec_table_name.
Proof. unfold enc_table_name, dec_table_name. roundtrip_record. Qed.

Lemma roundtrip_peer : roundtrip enc_peer dec_peer.
Proof. unfold enc_peer, dec_peer. roundtrip_record. Qed.

Lemma roundtrip_region : roundtrip enc_region dec_region.
Proof. unfold enc_region, dec_region. roundtrip_record. Qed.

Lemma roundtrip_region_route : roundtrip enc_region_route dec_region_route.
Proof.
  unfold enc_region_route, dec_region_route. intros [g l fs] r. cbn [app rr_region
    leader_peer_index follower_peer_indexes].
  rewrite <- !app_assoc.
  rewrite (p_bind_roundtrip _ _ _ _ _ (roundtrip_option _ _ roundtrip_region)).
  cbn [app]. rewrite p_bind_word.
  rewrite (p_bind_roundtrip _ _ _ _ _ (roundtrip_list _ _ roundtrip_word)).
  reflexivity.
Qed.

Lemma roundtrip_table : roundtrip enc_table dec_table.
Proof.
  unfold enc_table, dec_table. intros [i n] r. cbn [app table_id_of table_table_name].
  rewrite p_bind_word.
  rewrite (p_bind_roundtrip _ _ _ _ _ (roundtrip_option _ _ roundtrip_table_name)).
  reflexivity.
Qed.

Lemma roundtrip_table_route : roundtrip enc_table_route dec_table_route.
Proof.
  unfold enc_table_route, dec_table_route. intros [t rs] r. cbn [route_table region_routes].
  rewrite <- !app_assoc.
  rewrite (p_bind_roundtrip _ _ _ _ _ (roundtrip_option _ _ roundtrip_table)).
  rewrite (p_bind_roundtrip _ _ _ _ _ (roundtrip_list _ _ roundtrip_region_route)).
  reflexivity.
Qed.

(** Every [TableRouteValue] decodes back from its encoding, with the order of
    its peers, regions and followers. *)
Lemma decode_encode_table_route_value (v : TableRouteValue) :
  decode_table_route_value (encode_table_route_value v) = Some v.
Proof.
  destruct v as [ps t]. unfold decode_table_route_value, encode_table_route_value, p_full.
  cbn [peers table_route]. rewrite <- (app_nil_r (enc_option _ _)).
  rewrite (p_bind_roundtrip _ _ _ _ _ (roundtrip_list _ _ roundtrip_peer)).
  rewrite (p_bind_roundtrip _ _ _ _ _ (roundtrip_option _ _ roundtrip_table_route)).
  reflexivity.
Qed.

Lemma decode_encode_table_global_value (v : TableGlobalValue) :
  decode_table_global_value (encode_table_global_value v) = Some v.
Proof.
  destruct v as [n t]. unfold decode_table_global_value, encode_table_global_value, p_full.
  cbn [tgv_node_id tgv_table_info app]. rewrite <- (app_nil_r (enc_raw_table_info _)).
  rewrite p_bind_word, (p_bind_roundtrip _ _ _ _ _ roundtrip_raw_table_info).
  reflexivity.
Qed.

(* ------------------------------------------------------------------ *)
(** ** Monad laws, pointwise in the state *)

Lemma bind_ret_l {S A B} (a : A) (f : A -> M S B) (s : S) : bind (ret a) f s = f a s.
Proof. unfold bind, ret. destruct (f a s) as [[??]?]. reflexivity. Qed.

Lemma bind_assoc {S A B C} (m : M S A) (f : A -> M S B) (g : B -> M S C) (s : S) :
  bind (bind m f) g s = bind m (fun a => bind (f a) g) s.
Proof.
  unfold bind. destruct (m s) as [[s1 o1] [a|e]]; [|reflexivity].
  destruct (f a s1) as [[s2 o2] [b|e]]; [|reflexivity].
  destruct (g b s2) as [[s3 o3] r]. rewrite app_assoc. reflexivity.
Qed.

Lemma bind_ext {S A B} (m : M S A) (f g : A -> M S B) (s : S) :
  (forall a s', f a s' = g a s') -> bind m f s = bind m g s.
Proof. intros Hfg. unfold bind. destruct (m s) as [[s1 o1] [a|e]]; [rewrite Hfg|]; reflexivity. Qed.

(* ------------------------------------------------------------------ *)
(** ** Single-table read path and write path, over any store *)

Section ReadWrite.
Context {S : Type} `{KvStore S}.

(** C2: not-found distinction. On a key absent from the store,
    [get_table_global_value] returns [Ok None] (absence is not an error),
    while [get_table_route_value] fails with [TableRouteNotFound] carrying
    the key. Neither call changes the store. *)
Theorem absent_key_global_none_route_not_found (s : S) (gk : TableGlobalKey)
  (rk : TableRouteKey) :
  kv_get s (to_raw_key gk) = Ok None ->
  kv_get s (route_key_to_string rk) = Ok None ->
  get_table_global_value gk s = (s, [OpGet (to_raw_key gk)], Ok None) /\
  get_table_route_value rk s =
    (s, [OpGet (route_key_to_string rk)], Err (TableRouteNotFound (route_key_to_string rk))).
Proof.
  intros Hg Hr. unfold get_table_global_value, get_table_route_value, bind, store_get.
  rewrite Hg, Hr. split; reflexivity.
Qed.

(** C7: a present key whose bytes do not decode makes [get_table_global_value]
    fail with [InvalidCatalogValue] and [get_table_route_value] fail with
    [DecodeTableRoute]; no default value is returned. *)
Theorem undecodable_value_errors (s : S) (gk : TableGlobalKey) (rk : TableRouteKey)
  (b1 b2 : bytes) :
  kv_get s (to_raw_key gk) = Ok (Some b1) ->
  decode_table_global_value b1 = None ->
  kv_get s (route_key_to_string rk) = Ok (Some b2) ->
  decode_table_route_value b2 = None ->
  (get_table_global_value gk s).2 = Err InvalidCatalogValue /\
  (get_table_route_value rk s).2 = Err DecodeTableRoute.
Proof.
  intros Hg Dg Hr Dr. unfold get_table_global_value, get_table_route_value, bind, store_get.
  rewrite Hg, Dg, Hr, Dr. split; reflexivity.
Qed.

(** C1: [fetch_table] first reads the global value. When it is absent the
    result is [Ok None] and no route is read; when it is present the route
    keyed by its table id is read, a missing route is the error
    [TableRouteNotFound] (not [None]), and a present route gives the pair. *)
Theorem fetch_table_global_then_route (s : S) (r : TableReference) :
  let gk := global_key_of_ref r in
  (kv_get s (to_raw_key gk) = Ok None ->
   fetch_table r s = (s, [OpGet (to_raw_key gk)], Ok None)) /\
  (forall (b : bytes) (g : TableGlobalValue),
     kv_get s (to_raw_key gk) = Ok (Some b) ->
     decode_table_global_value b = Some g ->
     let rk := route_key_to_string (table_route_key (table_id g) gk) in
     (kv_get s rk = Ok None ->
      fetch_table r s = (s, [OpGet (to_raw_key gk); OpGet rk], Err (TableRouteNotFound rk))) /\
     (forall (b' : bytes) (v : TableRouteValue),
        kv_get s rk = Ok (Some b') ->
        decode_table_route_value b' = Some v ->
        fetch_table r s = (s, [OpGet (to_raw_key gk); OpGet rk], Ok (Some (g, v))))).
Proof.
  cbv zeta. split.
  - intros Hg. unfold fetch_table, get_table_global_value, bind, store_get.
    rewrite Hg. reflexivity.
  - intros b g Hg Dg. split.
    + intros Hr. unfold fetch_table, get_table_global_value, get_table_route_value, bind,
        store_get. rewrite Hg, Dg. cbn. rewrite Hr. reflexivity.
    + intros b' v Hr Dr. unfold fetch_table, get_table_global_value, get_table_route_value,
        bind, store_get. rewrite Hg, Dg. cbn. rewrite Hr, Dr. reflexivity.
Qed.

(** C6: [put_table_route_value] issues exactly one KV put, of the encoded
    value under the route key with [prev_kv = false], and it fails exactly
    when that put fails; the value's content never makes it fail. *)
Theorem put_route_value_single_put (s : S) (k : TableRouteKey) (v : TableRouteValue) :
  let req := {| put_key := route_key_to_string k;
                put_value := encode_table_route_value v;
                prev_kv := false |} in
  (put_table_route_value k v s).1.2 = [OpPut req] /\
  (forall e, (put_table_route_value k v s).2 = Err e <-> kv_put s req = Err e) /\
  (forall s' prev, kv_put s req = Ok (s', prev) -> put_table_route_value k v s = (s', [OpPut req], Ok tt)).
Proof.
  cbv zeta. unfold put_table_route_value, bind, store_put, ret.
  destruct (kv_put s _) as [[s' prev]|e]; cbn.
  - split; [reflexivity|]. split.
    + intros e; split; discriminate.
    + intros s'' prev' [= <- <-]. reflexivity.
  - split; [reflexivity|]. split.
    + intros e'; split; congruence.
    + discriminate.
Qed.

End ReadWrite.

(* ------------------------------------------------------------------ *)
(** ** Write path on the in-memory store *)

Lemma mem_put_route_value (s : gmap string bytes) (k : TableRouteKey) (v : TableRouteValue) :
  put_table_route_value k v s =
    (<[route_key_to_string k := encode_table_route_value v]> s,
     [OpPut {| put_key := route_key_to_string k;
               put_value := encode_table_route_value v;
               prev_kv := false |}],
     Ok tt).
Proof. reflexivity. Qed.

(** C5: after [put_table_route_value k v], [get_table_route_value k] returns
    [v]; a route key other than [k] that the store did not hold before still
    fails with [TableRouteNotFound]. *)
Theorem put_then_get_route_value (s : gmap string bytes) (k k' : TableRouteKey)
  (v : TableRouteValue) :
  let s' := (put_table_route_value k v s).1.1 in
  (get_table_route_value k s').2 = Ok v /\
  (k' <> k -> s !! route_key_to_string k' = None ->
   (get_table_route_value k' s').2 = Err (TableRouteNotFound (route_key_to_string k'))).
Proof.
  cbv zeta. rewrite mem_put_route_value. cbn [fst].
  unfold get_table_route_value, bind, store_get. cbn [kv_get MemStore].
  split.
  - rewrite lookup_insert_eq, decode_encode_table_route_value. reflexivity.
  - intros Hne Hnone. rewrite lookup_insert_ne, Hnone; [reflexivity|].
    intros Heq. apply Hne. symmetry. apply route_key_to_string_inj, Heq.
Qed.

(** C8: writing the same route value twice under the same key leaves the
    store as writing it once. *)
Theorem put_route_value_idempotent (s : gmap string bytes) (k : TableRouteKey)
  (v : TableRouteValue) :
  (bind (put_table_route_value k v) (fun _ => put_table_route_value k v) s).1.1 =
  (put_table_route_value k v s).1.1.
Proof.
  unfold bind. rewrite !mem_put_route_value. cbn. apply insert_insert_eq.
Qed.

(* ------------------------------------------------------------------ *)
(** ** Batched read path, over any store and table info manager *)

Section Batch.
Context {S : Type} `{KvStore S} `{TableInfoManager S}.

Lemma bind_table_info_get_old {B} (n : TableName) (f : option TableInfoValue -> M S B) (s : S) :
  bind (table_info_get_old n) f s =
    match get_old s n with
    | inl m => (s, [OpTableInfo n], Err (TableMetadataManager m))
    | inr o => let '(s2, o2, r) := f o s in (s2, OpTableInfo n :: o2, r)
    end.
Proof. unfold bind, table_info_get_old. destruct (get_old s n); reflexivity. Qed.

Lemma bind_get_table_route_value {B} (rk : TableRouteKey) (f : TableRouteValue -> M S B) (s : S) :
  bind (get_table_route_value rk) f s =
    match (get_table_route_value rk s).2 with
    | Ok v => let '(s2, o2, r) := f v s in (s2, OpGet (route_key_to_string rk) :: o2, r)
    | Err e => (s, [OpGet (route_key_to_string rk)], Err e)
    end.
Proof.
  unfold get_table_route_value, bind, store_get.
  destruct (kv_get s _) as [[b|]|e]; cbn; [|reflexivity|reflexivity].
  destruct (decode_table_route_value b); cbn; [|reflexivity].
  destruct (f t s) as [[??]?]. reflexivity.
Qed.

Lemma fetch_tables_loop_app (l1 l2 : list TableName) acc (s : S) :
  fetch_tables_loop (l1 ++ l2) acc s =
  bind (fetch_tables_loop l1 acc) (fun r => fetch_tables_loop l2 r) s.
Proof.
  revert acc s. induction l1 as [|n l1 IH]; intros acc s.
  - cbn [app fetch_tables_loop]. rewrite bind_ret_l. reflexivity.
  - cbn [app fetch_tables_loop]. rewrite bind_assoc. apply bind_ext.
    intros [i|] s'.
    + rewrite bind_assoc. apply bind_ext. intros trv s''. apply IH.
    + apply IH.
Qed.

Lemma fetch_tables_loop_state (l : list TableName) acc (s : S) :
  (fetch_tables_loop l acc s).1.1 = s.
Proof.
  revert acc. induction l as [|n l IH]; intros acc; [reflexivity|].
  cbn [fetch_tables_loop]. rewrite bind_table_info_get_old.
  destruct (get_old s n) as [m|[i|]]; [reflexivity| |].
  - rewrite bind_get_table_route_value.
    destruct (get_table_route_value _ s).2; [|reflexivity].
    specialize (IH (acc ++ [(i, a)])).
    destruct (fetch_tables_loop l _ s) as [[??]?]. exact IH.
  - specialize (IH acc). destruct (fetch_tables_loop l acc s) as [[??]?]. exact IH.
Qed.

Lemma fetch_tables_loop_all_ok (l : list TableName) acc (s : S) :
  Forall (fetch_ok s) l ->
  fetch_tables_loop l acc s =
    (s, List.flat_map (fetch_requests s) l, Ok (acc ++ omap (fetch_entry s) l)).
Proof.
  revert acc. induction l as [|n l IH]; intros acc Hok.
  - cbn. rewrite app_nil_r. reflexivity.
  - inversion Hok as [|? ? Hn Hl]; subst.
    cbn [fetch_tables_loop List.flat_map]. rewrite bind_table_info_get_old.
    unfold fetch_ok in Hn. unfold fetch_requests at 1.
    cbn [omap list_omap]. unfold fetch_entry at 1.
    destruct (get_old s n) as [m|[i|]]; [contradiction| |].
    + destruct Hn as [v Hv]. rewrite bind_get_table_route_value, Hv, IH by exact Hl.
      rewrite <- app_assoc. reflexivity.
    + rewrite IH by exact Hl. reflexivity.
Qed.

Lemma fetch_tables_loop_acc_prefix (l : list TableName) acc (s : S) :
  forall r, (fetch_tables_loop l acc s).2 = Ok r -> exists r', r = acc ++ r'.
Proof.
  revert acc. induction l as [|n l IH]; intros acc r.
  - cbn. intros [= <-]. exists []. rewrite app_nil_r. reflexivity.
  - cbn [fetch_tables_loop]. rewrite bind_table_info_get_old.
    destruct (get_old s n) as [m|[i|]]; [discriminate| |].
    + rewrite bind_get_table_route_value.
      destruct (get_table_route_value _ s).2 as [v|e]; [|discriminate].
      specialize (IH (acc ++ [(i, v)]) r).
      destruct (fetch_tables_loop l _ s) as [[??]?]. cbn. intros Hr.
      destruct (IH Hr) as [r' ->]. exists ([(i, v)] ++ r'). rewrite app_assoc. reflexivity.
    + specialize (IH acc r). destruct (fetch_tables_loop l acc s) as [[??]?]. exact IH.
Qed.

Lemma length_omap_le {A B} (f : A -> option B) (l : list A) :
  (length (omap f l) <= length l)%nat.
Proof.
  induction l as [|a l IH]; cbn; [lia|].
  destruct (f a); cbn; lia.
Qed.

End Batch.

Section BatchClaims.
Context {S : Type} `{KvStore S} `{TableInfoManager S}.

(** C3: when every lookup succeeds, [fetch_tables] visits the names in input
    order (its requests are those of each name in turn), silently skips the
    names whose table info is absent, and returns the entries of the other
    names in input order, so no more entries than names. *)
Theorem fetch_tables_skips_absent_info (s : S) (names : list TableName) :
  Forall (fetch_ok s) names ->
  fetch_tables names s =
    (s, List.flat_map (fetch_requests s) names, Ok (omap (fetch_entry s) names)) /\
  (length (omap (fetch_entry s) names) <= length names)%nat.
Proof.
  intros Hok. split.
  - unfold fetch_tables. rewrite fetch_tables_loop_all_ok by exact Hok. reflexivity.
  - apply length_omap_le.
Qed.

(** C4: when a name's table info is present but reading its route fails
    (with any error), [fetch_tables] fails with that error, even though the
    names before it were fetched. *)
Theorem fetch_tables_route_error_aborts (s : S) (pre post : list TableName)
  (n : TableName) (i : TableInfoValue) (e : Error)
  (res_pre : list (TableInfoValue * TableRouteValue)) :
  (fetch_tables pre s).2 = Ok res_pre ->
  get_old s n = inr (Some i) ->
  (get_table_route_value (route_key_of_info (tiv_table_info i)) s).2 = Err e ->
  (fetch_tables (pre ++ n :: post) s).2 = Err e.
Proof.
  intros Hpre Hi Hr. unfold fetch_tables in *. rewrite fetch_tables_loop_app.
  pose proof (fetch_tables_loop_state pre [] s) as Hst.
  unfold bind. destruct (fetch_tables_loop pre [] s) as [[s1 o1] r1].
  cbn in Hpre, Hst. subst r1 s1.
  cbn [fetch_tables_loop]. rewrite bind_table_info_get_old, Hi, bind_get_table_route_value, Hr.
  reflexivity.
Qed.

(** C9: when the table info lookup of a name fails, [fetch_tables] fails
    with that error wrapped as [TableMetadataManager], even though the names
    before it were fetched; only an absent info is skipped. *)
Theorem fetch_tables_info_error_aborts (s : S) (pre post : list TableName)
  (n : TableName) (m : string) (res_pre : list (TableInfoValue * TableRouteValue)) :
  (fetch_tables pre s).2 = Ok res_pre ->
  get_old s n = inl m ->
  (fetch_tables (pre ++ n :: post) s).2 = Err (TableMetadataManager m).
Proof.
  intros Hpre Hm. unfold fetch_tables in *. rewrite fetch_tables_loop_app.
  pose proof (fetch_tables_loop_state pre [] s) as Hst.
  unfold bind. destruct (fetch_tables_loop pre [] s) as [[s1 o1] r1].
  cbn in Hpre, Hst. subst r1 s1.
  cbn [fetch_tables_loop]. rewrite bind_table_info_get_old, Hm.
  reflexivity.
Qed.

(** C10: in any batch, for a name whose table info resolves (the names
    before it having been fetched), the route [fetch_tables] reads next is
    keyed by the table id, catalog, schema and table name recorded in that
    table info, not by the components of the name looked up: a failure
    reading that key is the batch's error, and otherwise the route read
    under that key is the one paired with the info in the result. *)
Theorem fetch_tables_route_key_from_info (s : S) (pre post : list TableName) (n : TableName)
  (i : TableInfoValue) (res_pre : list (TableInfoValue * TableRouteValue)) :
  (fetch_tables pre s).2 = Ok res_pre ->
  get_old s n = inr (Some i) ->
  let ti := tiv_table_info i in
  let rk := {| trk_table_id := ident_table_id ti;
               trk_catalog_name := ti_catalog_name ti;
               trk_schema_name := ti_schema_name ti;
               trk_table_name := ti_name ti |} in
  (exists rest, (fetch_tables (pre ++ n :: post) s).1.2 =
     (fetch_tables pre s).1.2 ++ OpTableInfo n :: OpGet (route_key_to_string rk) :: rest) /\
  (forall e, (get_table_route_value rk s).2 = Err e ->
             (fetch_tables (pre ++ n :: post) s).2 = Err e) /\
  (forall v res, (get_table_route_value rk s).2 = Ok v ->
                 (fetch_tables (pre ++ n :: post) s).2 = Ok res ->
                 res !! length res_pre = Some (i, v)).
Proof.
  intros Hpre Hi. cbv zeta. unfold fetch_tables in *. rewrite fetch_tables_loop_app.
  pose proof (fetch_tables_loop_state pre [] s) as Hst.
  unfold bind. destruct (fetch_tables_loop pre [] s) as [[s1 o1] r1].
  cbn in Hpre, Hst. subst r1 s1.
  cbn [fetch_tables_loop]. rewrite bind_table_info_get_old, Hi, bind_get_table_route_value.
  unfold route_key_of_info.
  destruct (get_table_route_value _ s).2 as [v|e] eqn:Hr.
  - pose proof (fetch_tables_loop_acc_prefix post (res_pre ++ [(i, v)]) s) as Hpref.
    destruct (fetch_tables_loop post (res_pre ++ [(i, v)]) s) as [[s2 o2] r2].
    cbn. split; [eexists; reflexivity|]. split; [intros e He; discriminate|].
    intros v' res Hv' Hres. injection Hv' as <-. subst r2.
    destruct (Hpref _ eq_refl) as [r' ->].
    rewrite <- app_assoc. rewrite lookup_app_r by lia. rewrite Nat.sub_diag. reflexivity.
  - cbn. split; [exists []; reflexivity|]. split; [intros e' He'; congruence|].
    intros v' res Hv'. discriminate.
Qed.

End BatchClaims.

(* ------------------------------------------------------------------ *)
(** ** The claims on concrete stores *)

Lemma fetch_table_global_then_route_witness :
  fetch_table (sample_ref "t") empty_store = (empty_store, [OpGet (global_key_string "t")], Ok None) /\
  (fetch_table (sample_ref "t") store_global_only).2 =
    Err (TableRouteNotFound (route_key_string 7 "t")) /\
  (fetch_table (sample_ref "t") store_global_and_route).2 =
    Ok (Some (sample_global_value 7 "t", sample_route_value)).
Proof.
  split; [|split].
  - destruct (fetch_table_global_then_route empty_store (sample_ref "t")) as [H1 _].
    rewrite H1 by reflexivity. reflexivity.
  - destruct (fetch_table_global_then_route store_global_only (sample_ref "t")) as [_ H2].
    destruct (H2 (encode_table_global_value (sample_global_value 7 "t"))
                 (sample_global_value 7 "t")) as [H3 _];
      [vm_compute; reflexivity | apply decode_encode_table_global_value |].
    rewrite H3 by (vm_compute; reflexivity). vm_compute. reflexivity.
  - destruct (fetch_table_global_then_route store_global_and_route (sample_ref "t")) as [_ H2].
    destruct (H2 (encode_table_global_value (sample_global_value 7 "t"))
                 (sample_global_value 7 "t")) as [_ H3];
      [vm_compute; reflexivity | apply decode_encode_table_global_value |].
    rewrite (H3 (encode_table_route_value sample_route_value) sample_route_value);
      [reflexivity | vm_compute; reflexivity | apply decode_encode_table_route_value].
Defined.

Lemma absent_key_witness :
  get_table_global_value (global_key_of_ref (sample_ref "t")) empty_store =
    (empty_store, [OpGet (global_key_string "t")], Ok None) /\
  (get_table_route_value (sample_route_key 8) empty_store).2 =
    Err (TableRouteNotFound "__meta_table_route-c-s-t-8").
Proof.
  destruct (absent_key_global_none_route_not_found empty_store
              (global_key_of_ref (sample_ref "t")) (sample_route_key 8)) as [H1 H2];
    [reflexivity | reflexivity |].
  split; [exact H1 | rewrite H2; reflexivity].
Defined.

Lemma undecodable_value_witness :
  (get_table_global_value (global_key_of_ref (sample_ref "t")) store_corrupt).2
    = Err InvalidCatalogValue /\
  (get_table_route_value (route_key_of_info (sample_info 7 "t")) store_corrupt).2
    = Err DecodeTableRoute.
Proof.
  apply (undecodable_value_errors store_corrupt _ _ [] []);
    vm_compute; reflexivity.
Defined.

Lemma put_route_value_single_put_witness :
  put_table_route_value (sample_route_key 7) sample_route_value empty_store =
    (<[ "__meta_table_route-c-s-t-7" := encode_table_route_value sample_route_value ]> empty_store,
     [OpPut {| put_key := "__meta_table_route-c-s-t-7";
               put_value := encode_table_route_value sample_route_value;
               prev_kv := false |}],
     Ok tt).
Proof.
  destruct (put_route_value_single_put empty_store (sample_route_key 7) sample_route_value)
    as [_ [_ H3]].
  apply (H3 _ None). reflexivity.
Defined.

Lemma put_then_get_route_value_witness :
  let s' := (put_table_route_value (sample_route_key 7) sample_route_value empty_store).1.1 in
  (get_table_route_value (sample_route_key 7) s').2 = Ok sample_route_value /\
  (get_table_route_value (sample_route_key 8) s').2 =
    Err (TableRouteNotFound "__meta_table_route-c-s-t-8").
Proof.
  destruct (put_then_get_route_value empty_store (sample_route_key 7) (sample_route_key 8)
              sample_route_value) as [H1 H2].
  split; [exact H1|].
  rewrite H2; [reflexivity | discriminate | reflexivity].
Defined.

Lemma fetch_tables_skips_absent_info_witness :
  (fetch_tables [sample_name "A"; sample_name "B"; sample_name "C"] store_skip).2 =
    Ok [(sample_info_value 1 "A", sample_route 1); (sample_info_value 3 "C", sample_route 3)].
Proof.
  destruct (fetch_tables_skips_absent_info store_skip
              [sample_name "A"; sample_name "B"; sample_name "C"]) as [H _].
  - repeat constructor; vm_compute; eauto.
  - rewrite H. vm_compute. reflexivity.
Defined.

Lemma fetch_tables_route_error_aborts_witness :
  (fetch_tables [sample_name "A"; sample_name "B"] store_abort).2 =
    Err (TableRouteNotFound (route_key_string 2 "B")).
Proof.
  apply (fetch_tables_route_error_aborts store_abort [sample_name "A"] [] (sample_name "B")
           (sample_info_value 2 "B") _ [(sample_info_value 1 "A", sample_route 1)]);
    vm_compute; reflexivity.
Defined.

Lemma fetch_tables_info_error_aborts_witness :
  (fetch_tables [sample_name "A"; sample_name "B"] store_info_error).2 =
    Err (TableMetadataManager "invalid table global value").
Proof.
  apply (fetch_tables_info_error_aborts store_info_error [sample_name "A"] [] (sample_name "B")
           _ [(sample_info_value 1 "A", sample_route 1)]);
    vm_compute; reflexivity.
Defined.

Lemma fetch_tables_route_key_from_info_witness :
  (exists rest, (fetch_tables ([sample_name "A"] ++ [sample_name "x"]) store_renamed_after).1.2 =
     [OpTableInfo (sample_name "A"); OpGet (route_key_string 1 "A")] ++
     OpTableInfo (sample_name "x") :: OpGet (route_key_string 5 "t") :: rest) /\
  (forall res, (fetch_tables ([sample_name "A"] ++ [sample_name "x"]) store_renamed_after).2
                 = Ok res ->
               res !! 1%nat = Some (sample_info_value 5 "t", sample_route 5)).
Proof.
  destruct (fetch_tables_route_key_from_info store_renamed_after [sample_name "A"] []
              (sample_name "x") (sample_info_value 5 "t")
              [(sample_info_value 1 "A", sample_route 1)]) as [Htr [_ Hok]];
    [vm_compute; reflexivity | vm_compute; reflexivity |].
  split.
  - destruct Htr as [rest Hrest]. exists rest. rewrite Hrest. vm_compute. reflexivity.
  - intros res Hres. apply (Hok (sample_route 5) res); [vm_compute; reflexivity | exact Hres].
Defined.

(* ------------------------------------------------------------------ *)
(** ** Further properties of the read and write paths *)

Lemma route_key_ne_global_key (k : TableRouteKey) (gk : TableGlobalKey) :
  route_key_to_string k <> to_raw_key gk.
Proof.
  unfold route_key_to_string, to_raw_key, TABLE_ROUTE_PREFIX, TABLE_GLOBAL_KEY_PREFIX.
  unfold String.append at 1 3; fold String.append. discriminate.
Qed.

Lemma omap_app {A B} (f : A -> option B) (l1 l2 : list A) :
  omap f (l1 ++ l2) = omap f l1 ++ omap f l2.
Proof. induction l1 as [|a l1 IH]; cbn; [reflexivity|]. destruct (f a); cbn; rewrite IH; reflexivity. Qed.

Section ReadErrors.
Context {S : Type} `{KvStore S}.

(** [fetch_table] stops at the global value: when reading it fails with
    [e], or its bytes do not decode, that is the result and no route is
    read. *)
Theorem fetch_table_global_read_error (s : S) (r : TableReference) :
  let gk := to_raw_key (global_key_of_ref r) in
  (forall e, kv_get s gk = Err e -> fetch_table r s = (s, [OpGet gk], Err e)) /\
  (forall b, kv_get s gk = Ok (Some b) -> decode_table_global_value b = None ->
     fetch_table r s = (s, [OpGet gk], Err InvalidCatalogValue)).
Proof.
  cbv zeta. split.
  - intros e He. unfold fetch_table, get_table_global_value, bind, store_get.
    rewrite He. reflexivity.
  - intros b Hb Db. unfold fetch_table, get_table_global_value, bind, store_get.
    rewrite Hb, Db. reflexivity.
Qed.

(** When the global value is present, any failure reading its route
    (missing key, undecodable bytes or a store error) is the result of
    [fetch_table], after exactly the two reads. *)
Theorem fetch_table_route_read_error (s : S) (r : TableReference) (b : bytes)
  (g : TableGlobalValue) (e : Error) :
  let gk := global_key_of_ref r in
  let rk := table_route_key (table_id g) gk in
  kv_get s (to_raw_key gk) = Ok (Some b) ->
  decode_table_global_value b = Some g ->
  (get_table_route_value rk s).2 = Err e ->
  fetch_table r s = (s, [OpGet (to_raw_key gk); OpGet (route_key_to_string rk)], Err e).
Proof.
  cbv zeta. intros Hb Db Hr. unfold fetch_table, get_table_global_value, get_table_route_value,
    bind, store_get in *. rewrite Hb, Db. cbn.
  destruct (kv_get s (route_key_to_string (table_route_key (table_id g) (global_key_of_ref r))))
    as [[b'|]|e']; cbn in *; [|congruence|congruence].
  destruct (decode_table_route_value b'); cbn in *; congruence.
Qed.

End ReadErrors.

Section BatchExtra.
Context {S : Type} `{KvStore S} `{TableInfoManager S}.

(** When no name has a table info, [fetch_tables] returns an empty list
    without error, after one info lookup per name and no route read. *)
Theorem fetch_tables_all_absent (s : S) (names : list TableName) :
  Forall (fun n => get_old s n = inr None) names ->
  fetch_tables names s = (s, map OpTableInfo names, Ok []).
Proof.
  intros Hall. unfold fetch_tables. rewrite fetch_tables_loop_all_ok.
  - cbn [app]. f_equal; [f_equal|f_equal].
    + induction Hall as [|n l Hn Hl IH]; [reflexivity|].
      cbn [List.flat_map map]. unfold fetch_requests at 1. rewrite Hn. cbn [app].
      rewrite IH. reflexivity.
    + induction Hall as [|n l Hn Hl IH]; [reflexivity|].
      cbn [omap list_omap]. unfold fetch_entry at 1. rewrite Hn. exact IH.
  - eapply Forall_impl; [exact Hall|]. intros n Hn. unfold fetch_ok. rewrite Hn. exact I.
Qed.

(** When every lookup succeeds, fetching the concatenation of two batches
    gives the concatenation of their results. *)
Theorem fetch_tables_app (s : S) (l1 l2 : list TableName) :
  Forall (fetch_ok s) (l1 ++ l2) ->
  exists r1 r2, (fetch_tables l1 s).2 = Ok r1 /\ (fetch_tables l2 s).2 = Ok r2 /\
                (fetch_tables (l1 ++ l2) s).2 = Ok (r1 ++ r2).
Proof.
  intros Hall. apply Forall_app in Hall as Hsplit. destruct Hsplit as [H1 H2].
  unfold fetch_tables. exists (omap (fetch_entry s) l1), (omap (fetch_entry s) l2).
  rewrite !fetch_tables_loop_all_ok by assumption. cbn. rewrite omap_app. auto.
Qed.

End BatchExtra.

(** On the in-memory store, writing a route leaves every other route and
    every global value read as before. *)
Theorem put_route_value_frame (s : gmap string bytes) (k k' : TableRouteKey)
  (v : TableRouteValue) (gk : TableGlobalKey) :
  k' <> k ->
  let s' := (put_table_route_value k v s).1.1 in
  (get_table_route_value k' s').2 = (get_table_route_value k' s).2 /\
  (get_table_global_value gk s').2 = (get_table_global_value gk s).2.
Proof.
  intros Hne. cbv zeta. rewrite mem_put_route_value. cbn [fst].
  unfold get_table_route_value, get_table_global_value, bind, store_get.
  cbn [kv_get MemStore]. rewrite !lookup_insert_ne.
  - destruct (s !! route_key_to_string k') as [b|], (s !! to_raw_key gk) as [b'|];
      cbn; try destruct (decode_table_route_value b); try destruct (decode_table_global_value b');
      split; reflexivity.
  - intros Heq. exact (route_key_ne_global_key _ _ Heq).
  - intros Heq. apply Hne. symmetry. apply route_key_to_string_inj, Heq.
Qed.

(** On the in-memory store, once a table's global value is stored, writing
    the route under the key [fetch_table] derives from it makes [fetch_table]
    return the global value with that route. *)
Theorem fetch_table_after_put_route (s : gmap string bytes) (r : TableReference)
  (b : bytes) (g : TableGlobalValue) (v : TableRouteValue) :
  s !! to_raw_key (global_key_of_ref r) = Some b ->
  decode_table_global_value b = Some g ->
  let k := table_route_key (table_id g) (global_key_of_ref r) in
  (fetch_table r (put_table_route_value k v s).1.1).2 = Ok (Some (g, v)).
Proof.
  intros Hb Db. cbv zeta. rewrite mem_put_route_value. cbn [fst].
  unfold fetch_table, get_table_global_value, get_table_route_value, bind, store_get.
  cbn [kv_get MemStore].
  rewrite lookup_insert_ne by (apply route_key_ne_global_key).
  rewrite Hb, Db. cbn -[encode_table_route_value decode_table_route_value].
  rewrite lookup_insert_eq, decode_encode_table_route_value.
  reflexivity.
Qed.

(* ------------------------------------------------------------------ *)
(** ** The test helper [new_region_route] *)

Lemma find_leader_index_spec (i : N) (ps : list Peer) (l : N) :
  match find_leader_index i ps l with
  | Some j =>
      (i <= j)%N /\
      exists p, ps !! N.to_nat (j - i) = Some p /\ peer_id p = l /\
                Forall (fun q => peer_id q <> l) (take (N.to_nat (j - i)) ps)
  | None => Forall (fun q => peer_id q <> l) ps
  end.
Proof.
  revert i. induction ps as [|p ps IH]; intros i; cbn [find_leader_index]; [constructor|].
  destruct (N.eqb (peer_id p) l) eqn:E.
  - apply N.eqb_eq in E. split; [lia|]. rewrite N.sub_diag. cbn.
    exists p. split; [reflexivity|]. split; [exact E|constructor].
  - apply N.eqb_neq in E. specialize (IH (i + 1)).
    destruct (find_leader_index (i + 1) ps l) as [j|].
    + destruct IH as [Hle [q [Hq [Hid Hbefore]]]]. split; [lia|].
      exists q. replace (N.to_nat (j - i)) with (S (N.to_nat (j - (i + 1)))) by lia.
      cbn. split; [exact Hq|]. split; [exact Hid|]. constructor; assumption.
    + constructor; assumption.
Qed.

(** [new_region_route] makes a route for region [region_number] with no
    followers whose leader index points at the first peer with id
    [leader_node]; it panics (its [unwrap]) exactly when no peer has that id. *)
Theorem new_region_route_leader (region_number : N) (ps : list Peer) (leader_node : N) :
  (new_region_route region_number ps leader_node = None <->
   Forall (fun q => peer_id q <> leader_node) ps) /\
  (forall rr, new_region_route region_number ps leader_node = Some rr ->
   (exists p, ps !! N.to_nat (leader_peer_index rr) = Some p /\ peer_id p = leader_node) /\
   Forall (fun q => peer_id q <> leader_node) (take (N.to_nat (leader_peer_index rr)) ps) /\
   option_map region_id (rr_region rr) = Some region_number /\
   follower_peer_indexes rr = []).
Proof.
  pose proof (find_leader_index_spec 0 ps leader_node) as Hspec.
  unfold new_region_route.
  destruct (find_leader_index 0 ps leader_node) as [j|].
  - destruct Hspec as [_ [p [Hp [Hid Hbefore]]]]. rewrite N.sub_0_r in Hp, Hbefore.
    split.
    + split; [discriminate|]. intros Hall.
      apply list_elem_of_lookup_2 in Hp. rewrite Forall_forall in Hall.
      destruct (Hall p Hp Hid).
    + intros rr [= <-]. cbn. split; [eauto|]. auto.
  - split; [tauto|]. discriminate.
Qed.

(* ------------------------------------------------------------------ *)
(** ** Column default constraints *)

(** On a non-nullable column, [validate] fails with [NullDefault] exactly
    for the null default, whatever the column type. *)
Theorem validate_null_default_not_nullable (c : ColumnDefaultConstraint)
  (dt : ConcreteDataType) :
  validate c dt false = DErr NullDefault <-> c = null_value.
Proof.
  unfold validate, null_value. split.
  - destruct c as [expr|[]]; cbn; try reflexivity;
      try (destruct (String.eqb expr CURRENT_TIMESTAMP), (is_timestamp_compatible dt); cbn;
           discriminate);
      repeat case_decide; discriminate.
  - intros ->. reflexivity.
Qed.

(** A function default is valid exactly when it is [current_timestamp()] on
    a timestamp or Int64 column, for nullable and non-nullable columns alike;
    any other expression is reported as unsupported before the type is
    looked at. *)
Theorem validate_function_default (expr : string) (dt : ConcreteDataType)
  (is_nullable : bool) :
  (validate (DefaultFunction expr) dt is_nullable = DOk tt <->
   expr = CURRENT_TIMESTAMP /\ (dt = DtInt64 \/ exists u, dt = DtTimestamp u)) /\
  (expr <> CURRENT_TIMESTAMP ->
   validate (DefaultFunction expr) dt is_nullable = DErr (UnsupportedDefaultExpr expr)).
Proof.
  unfold validate. cbn [maybe_null negb].
  replace (negb (is_nullable || true)) with false by (destruct is_nullable; reflexivity).
  split.
  - destruct (String.eqb expr CURRENT_TIMESTAMP) eqn:E; cbn.
    + apply String.eqb_eq in E. destruct dt; cbn; split; intros H;
        try discriminate; eauto;
        destruct H as [_ [H|[u H]]]; discriminate.
    + apply String.eqb_neq in E. split; [discriminate|]. intros [H _]. contradiction.
  - intros Hne. apply String.eqb_neq in Hne. rewrite Hne. reflexivity.
Qed.

(** A value default is valid exactly when it is null on a nullable column or
    a non-null value whose logical type is the column's. *)
Theorem validate_value_default (v : Value) (dt : ConcreteDataType) (is_nullable : bool) :
  validate (DefaultValue v) dt is_nullable = DOk tt <->
  (v = VNull /\ is_nullable = true) \/
  (v <> VNull /\ dt_logical_type_id dt = value_logical_type_id v).
Proof.
  unfold validate. destruct v, is_nullable; cbn [maybe_null is_null negb orb];
    repeat case_decide; split; intros Hv;
    try discriminate; try reflexivity;
    try (left; split; reflexivity);
    try (right; split; [discriminate|assumption]);
    destruct Hv as [[? ?]|[? ?]]; congruence.
Qed.

Section DefaultVectorProps.
Variable try_push_value_ref : ConcreteDataType -> Value -> DResult Value.
Variable now : Z.

(** [create_default_vector] panics on zero rows, whatever the constraint.
    For a function default on
    more rows, it succeeds exactly when [validate] accepts the constraint;
    the rows then all hold the current time in milliseconds, as a
    millisecond timestamp for a timestamp column of any unit and as an
    Int64 for an Int64 column. *)
Theorem create_default_vector_function (expr : string) (dt : ConcreteDataType)
  (is_nullable : bool) (num_rows : nat) :
  (forall c, create_default_vector try_push_value_ref now c dt is_nullable 0 = None) /\
  (num_rows <> 0%nat ->
   ((exists vec, create_default_vector try_push_value_ref now (DefaultFunction expr) dt
                   is_nullable num_rows = Some (DOk vec)) <->
    validate (DefaultFunction expr) dt is_nullable = DOk tt) /\
   (forall u, create_default_vector try_push_value_ref now (DefaultFunction CURRENT_TIMESTAMP)
                (DtTimestamp u) is_nullable num_rows
              = Some (DOk (repeat (VTimestamp now Millisecond) num_rows))) /\
   create_default_vector try_push_value_ref now (DefaultFunction CURRENT_TIMESTAMP) DtInt64
     is_nullable num_rows = Some (DOk (repeat (VInt64 now) num_rows))).
Proof.
  split; [intros c; reflexivity|]. intros Hn.
  unfold create_default_vector. apply Nat.eqb_neq in Hn. rewrite Hn.
  split; [|split; [intros u; reflexivity|reflexivity]].
  unfold validate. cbn [maybe_null negb].
  replace (negb (is_nullable || true)) with false by (destruct is_nullable; reflexivity).
  destruct (String.eqb expr CURRENT_TIMESTAMP); cbn.
  - destruct dt; cbn; split;
      solve [ intros [vec Hv]; first [reflexivity | discriminate]
            | intros Hv; first [eexists; reflexivity | discriminate] ].
  - split; [intros [vec H]; discriminate | discriminate].
Qed.


(** With a builder that takes null and the values of its own logical type, a
    constraint that [validate] accepts always gives a default vector with one
    row per requested row. *)
Theorem validate_then_create_default_vector (c : ColumnDefaultConstraint)
  (dt : ConcreteDataType) (is_nullable : bool) (num_rows : nat) :
  (forall dt' v', is_null v' = true \/ dt_logical_type_id dt' = value_logical_type_id v' ->
                  exists stored, try_push_value_ref dt' v' = DOk stored) ->
  validate c dt is_nullable = DOk tt ->
  num_rows <> 0%nat ->
  exists vec, create_default_vector try_push_value_ref now c dt is_nullable num_rows
                = Some (DOk vec) /\ length vec = num_rows.
Proof.
  intros Hpush Hval Hn. unfold create_default_vector. apply Nat.eqb_neq in Hn as Hn'.
  rewrite Hn'. unfold validate in Hval. destruct c as [expr|v].
  - cbn [maybe_null negb] in Hval.
    replace (negb (is_nullable || true)) with false in Hval by (destruct is_nullable; reflexivity).
    destruct (String.eqb expr CURRENT_TIMESTAMP); cbn in Hval; [|discriminate].
    destruct dt; cbn in Hval; try discriminate; eexists; split; try reflexivity;
      apply repeat_length.
  - destruct (negb (is_nullable || negb (is_null v))) eqn:Hn0.
    + exfalso. destruct v, is_nullable; cbn in *; discriminate.
    + destruct (Hpush dt v) as [stored Hs];
        [|rewrite Hs; eexists; split; [reflexivity|apply repeat_length]].
      destruct v; cbn in Hval |- *; try (left; reflexivity); right;
        destruct is_nullable; cbn in Hval; case_decide; congruence.
Qed.

End DefaultVectorProps.

(* ------------------------------------------------------------------ *)
(** ** The further properties on concrete inputs *)

Lemma fetch_table_global_read_error_witness :
  fetch_table (sample_ref "t") store_corrupt =
    (store_corrupt, [OpGet (global_key_string "t")], Err InvalidCatalogValue).
Proof.
  destruct (fetch_table_global_read_error store_corrupt (sample_ref "t")) as [_ H].
  apply (H []); vm_compute; reflexivity.
Defined.

Lemma fetch_table_route_read_error_witness :
  fetch_table (sample_ref "t") store_global_only =
    (store_global_only, [OpGet (global_key_string "t"); OpGet (route_key_string 7 "t")],
     Err (TableRouteNotFound (route_key_string 7 "t"))).
Proof.
  apply (fetch_table_route_read_error store_global_only (sample_ref "t")
           (encode_table_global_value (sample_global_value 7 "t")) (sample_global_value 7 "t"));
    vm_compute; reflexivity.
Defined.

Lemma fetch_tables_all_absent_witness :
  fetch_tables [sample_name "B"; sample_name "D"] store_skip =
    (store_skip, [OpTableInfo (sample_name "B"); OpTableInfo (sample_name "D")], Ok []).
Proof.
  apply fetch_tables_all_absent. repeat constructor.
Defined.

Lemma fetch_tables_app_witness :
  (fetch_tables ([sample_name "A"; sample_name "B"] ++ [sample_name "C"]) store_skip).2 =
    Ok ([(sample_info_value 1 "A", sample_route 1)] ++ [(sample_info_value 3 "C", sample_route 3)]).
Proof.
  destruct (fetch_tables_app store_skip [sample_name "A"; sample_name "B"] [sample_name "C"])
    as [r1 [r2 [H1 [H2 H3]]]].
  - repeat constructor; vm_compute; eauto.
  - rewrite H3. vm_compute in H1, H2. injection H1 as <-. injection H2 as <-. reflexivity.
Defined.

Lemma put_route_value_frame_witness :
  let s' := (put_table_route_value (sample_route_key 8) (sample_route 8)
               store_global_and_route).1.1 in
  (get_table_route_value (sample_route_key 7) s').2 = Ok sample_route_value /\
  (get_table_global_value (global_key_of_ref (sample_ref "t")) s').2
    = Ok (Some (sample_global_value 7 "t")).
Proof.
  destruct (put_route_value_frame store_global_and_route (sample_route_key 8)
              (sample_route_key 7) (sample_route 8) (global_key_of_ref (sample_ref "t")))
    as [H1 H2]; [discriminate|].
  split; [rewrite H1 | rewrite H2]; vm_compute; reflexivity.
Defined.

Lemma fetch_table_after_put_route_witness :
  (fetch_table (sample_ref "t")
     (put_table_route_value (table_route_key 7 (global_key_of_ref (sample_ref "t")))
        (sample_route 7) store_global_only).1.1).2
  = Ok (Some (sample_global_value 7 "t", sample_route 7)).
Proof.
  exact (fetch_table_after_put_route store_global_only (sample_ref "t")
           (encode_table_global_value (sample_global_value 7 "t")) (sample_global_value 7 "t")
           (sample_route 7) ltac:(vm_compute; reflexivity)
           (decode_encode_table_global_value _)).
Defined.

Lemma new_region_route_leader_witness :
  new_region_route 3 sample_peers 4 = None /\
  (exists p, sample_peers !! 1%nat = Some p /\ peer_id p = 2).
Proof.
  destruct (new_region_route_leader 3 sample_peers 4) as [[_ Hnone] _].
  destruct (new_region_route_leader 3 sample_peers 2) as [_ Hsome].
  split.
  - apply Hnone. repeat constructor; cbn; discriminate.
  - destruct (Hsome _ eq_refl) as [Hp _]. exact Hp.
Defined.

Lemma validate_function_default_witness :
  validate (DefaultFunction "hello()") (DtTimestamp Millisecond) false
    = DErr (UnsupportedDefaultExpr "hello()") /\
  validate (DefaultFunction CURRENT_TIMESTAMP) (DtTimestamp Millisecond) false = DOk tt.
Proof.
  destruct (validate_function_default "hello()" (DtTimestamp Millisecond) false) as [_ H1].
  destruct (validate_function_default CURRENT_TIMESTAMP (DtTimestamp Millisecond) false)
    as [[_ H2] _].
  split; [apply H1; discriminate | apply H2; split; [reflexivity | right; eexists; reflexivity]].
Defined.

Lemma create_default_vector_function_witness :
  create_default_vector push_same_logical_type 1700000000000%Z
    (DefaultFunction CURRENT_TIMESTAMP) (DtTimestamp Second) false 2
  = Some (DOk [VTimestamp 1700000000000%Z Millisecond; VTimestamp 1700000000000%Z Millisecond]).
Proof.
  destruct (create_default_vector_function push_same_logical_type 1700000000000%Z
              CURRENT_TIMESTAMP (DtTimestamp Second) false 2) as [_ H].
  destruct H as [_ [H _]]; [discriminate|]. apply H.
Defined.


Lemma validate_then_create_default_vector_witness :
  exists vec, create_default_vector push_same_logical_type 0%Z (DefaultValue (VInt32 10))
                DtInt32 false 4 = Some (DOk vec) /\ length vec = 4%nat.
Proof.
  apply validate_then_create_default_vector.
  - intros dt' v' [Hn|Hl]; exists v'; unfold push_same_logical_type; [rewrite Hn; reflexivity|].
    destruct (is_null v'); [reflexivity|]. case_decide; [reflexivity|contradiction].
  - reflexivity.
  - discriminate.
Defined.
